(** * ssh.go: the package-level surface of the SSH server library

    A shallow embedding of [ssh.go] (package [ssh]): the [Signal]
    vocabulary, the [Window] and [Pty] structs, the [DefaultHandler]
    global with [Handle], the start-up functions [Serve] and
    [ListenAndServe], and the key comparison [KeysEqual].  The PTY
    state of a session, which other files of the package keep, is
    modelled from the spec. *)

From Stdlib Require Import String ZArith List Bool Lia.
From Stdlib.Strings Require Import Byte.
Import ListNotations.

Local Open Scope Z_scope.

(** ** Machine integers *)

(** Go's [uint8] and [uint32] arithmetic wraps around. *)
Definition uint8 (z : Z) : Z := z mod 2 ^ 8.
Definition uint32 (z : Z) : Z := z mod 2 ^ 32.

(** The numeric value of one element of a [[]byte] slice. *)
Definition byte_val (b : byte) : Z := Z.of_N (Byte.to_N b).


(** ** Signals

    [type Signal string], with the constants of the [const] block in
    the order they are declared. *)

Definition Signal : Type := string.

Definition SIGABRT : Signal := "ABRT"%string.
Definition SIGALRM : Signal := "ALRM"%string.
Definition SIGFPE : Signal := "FPE"%string.
Definition SIGHUP : Signal := "HUP"%string.
Definition SIGILL : Signal := "ILL"%string.
Definition SIGINT : Signal := "INT"%string.
Definition SIGKILL : Signal := "KILL"%string.
Definition SIGPIPE : Signal := "PIPE"%string.
Definition SIGQUIT : Signal := "QUIT"%string.
Definition SIGSEGV : Signal := "SEGV"%string.
Definition SIGTERM : Signal := "TERM"%string.
Definition SIGUSR1 : Signal := "USR1"%string.
Definition SIGUSR2 : Signal := "USR2"%string.

Definition declared_signals : list Signal :=
  [SIGABRT; SIGALRM; SIGFPE; SIGHUP; SIGILL; SIGINT; SIGKILL;
   SIGPIPE; SIGQUIT; SIGSEGV; SIGTERM; SIGUSR1; SIGUSR2].

(** ** Window and Pty *)

Record Window : Type := { Width : Z; Height : Z }.


Record Pty : Type := { Pty_Window : Window }.

(** ** crypto/subtle

    [KeysEqual] calls [subtle.ConstantTimeCompare] of Go's standard
    library.  The functions below follow the library's text:

      func ConstantTimeByteEq(x, y uint8) int {
              return int((uint32(x^y) - 1) >> 31)
      }

      func ConstantTimeCompare(x, y []byte) int {
              if len(x) != len(y) { return 0 }
              var v byte
              for i := 0; i < len(x); i++ { v |= x[i] ^ y[i] }
              return ConstantTimeByteEq(v, 0)
      }
*)
Module subtle.

Definition ConstantTimeByteEq (x y : Z) : Z :=
  Z.shiftr (uint32 (uint32 (Z.lxor x y) - 1)) 31.

(** [x[i]].  The loop runs with [i < len(x) = len(y)] only, where the
    default of [nth] is never returned. *)
Definition index (x : list byte) (i : nat) : Z :=
  byte_val (nth i x "000"%byte).

(** The loop body, [v |= x[i] ^ y[i]]. *)
Definition round (x y : list byte) (v : Z) (i : nat) : Z :=
  uint8 (Z.lor v (Z.lxor (index x i) (index y i))).

Definition ConstantTimeCompare (x y : list byte) : Z :=
  if negb (Nat.eqb (length x) (length y)) then 0
  else
    let v := fold_left (round x y) (seq 0 (length x)) 0 in
    ConstantTimeByteEq v 0.

End subtle.

(** ** Public keys *)

(** [PublicKey] is an interface of the transport library; [KeysEqual]
    uses its [Marshal() []byte] method only. *)
Class PublicKeyImpl (K : Type) : Type := { Marshal : K -> list byte }.

(** An interface value is [nil] or holds a key. *)
Definition PublicKey (K : Type) : Type := option K.

(** [KeysEqual]: [false] if one of the keys is [nil], else the length
    test and the comparison of the two encodings. *)
Definition KeysEqual {K : Type} `{PublicKeyImpl K} (ak bk : PublicKey K) : bool :=
  match ak, bk with
  | Some ka, Some kb =>
      let a := Marshal ka in
      let b := Marshal kb in
      Nat.eqb (length a) (length b)
      && (subtle.ConstantTimeCompare a b =? 1)
  | _, _ => false
  end.

(** A key given by its wire encoding, for concrete runs. *)
Record RawKey : Type := { raw : list byte }.

#[export] Instance RawKey_PublicKey : PublicKeyImpl RawKey := { Marshal := raw }.

(** ** What a run of the comparison lets an observer see

    The same code once more, now recording what its running time can
    depend on: the outcome of every conditional jump and the index of
    every slice element that is read.  Straight-line arithmetic on
    machine words leaves no mark.  [Marshal] belongs to the transport
    library and is not accounted for. *)

Inductive Leak : Type :=
| Branch (taken : bool)
| Load (i : nat).

Definition Timed (A : Type) : Type := (A * list Leak)%type.

Definition ret {A : Type} (a : A) : Timed A := (a, []).

Definition bind {A B : Type} (m : Timed A) (f : A -> Timed B) : Timed B :=
  let '(a, t1) := m in
  let '(b, t2) := f a in
  (b, t1 ++ t2).

Definition leak (l : Leak) : Timed unit := (tt, [l]).

(** Evaluates a condition that the code jumps on. *)
Definition branch (c : bool) : Timed bool := (c, [Branch c]).

(** Reads [x[i]]. *)
Definition load (x : list byte) (i : nat) : Timed Z :=
  (subtle.index x i, [Load i]).

Definition value {A : Type} (m : Timed A) : A := fst m.
Definition leakage {A : Type} (m : Timed A) : list Leak := snd m.

(** The number of steps of a run that were marked. *)
Definition steps {A : Type} (m : Timed A) : nat := length (leakage m).

Declare Scope timed_scope.
Delimit Scope timed_scope with timed.
Notation "x <- m ;; k" := (bind m (fun x => k))
  (at level 61, m at next level, right associativity) : timed_scope.
Notation "m ;;; k" := (bind m (fun _ => k))
  (at level 61, right associativity) : timed_scope.

Module timed.

Local Open Scope timed_scope.

(** [for i := from; i < len(x); i++ { v |= x[i] ^ y[i] }], with [todo]
    the iterations left: the loop test, then the two reads. *)
Fixpoint loop (x y : list byte) (from todo : nat) (v : Z) : Timed Z :=
  match todo with
  | O => branch false ;;; ret v
  | S todo' =>
      branch true ;;;
      a <- load x from ;;
      b <- load y from ;;
      loop x y (S from) todo' (uint8 (Z.lor v (Z.lxor a b)))
  end.

Definition ConstantTimeCompare (x y : list byte) : Timed Z :=
  differ <- branch (negb (Nat.eqb (length x) (length y))) ;;
  if differ then ret 0
  else
    v <- loop x y 0 (length x) 0 ;;
    ret (subtle.ConstantTimeByteEq v 0).

(** [ak == nil || bk == nil] and [len(a) == len(b) && ...] are
    evaluated left to right and stop as soon as the result is known. *)
Definition KeysEqual {K : Type} `{PublicKeyImpl K} (ak bk : PublicKey K) : Timed bool :=
  match ak with
  | None => branch true ;;; ret false
  | Some ka =>
      branch false ;;;
      match bk with
      | None => branch true ;;; ret false
      | Some kb =>
          branch false ;;;
          let a := Marshal ka in
          let b := Marshal kb in
          same_len <- branch (Nat.eqb (length a) (length b)) ;;
          if same_len then
            c <- ConstantTimeCompare a b ;;
            ret (c =? 1)
          else ret false
      end
  end.

End timed.

(** ** Servers

    [Server], [Session], [net.Listener] and [error] are declared
    outside this file.  Of a [Server] the file shows the two fields that
    the composite literals of [Serve] and [ListenAndServe] set; the
    other fields start at their zero values. *)

Class Types : Type := {
  HandlerFunc : Type;   (* the non-nil values of [func(Session)] *)
  Listener : Type;      (* [net.Listener] *)
  Error : Type;         (* the non-nil values of [error] *)
  Fields : Type;        (* the fields of [Server] besides [Addr], [Handler] *)
  zero_fields : Fields; (* their zero values *)
  World : Type          (* whatever else a running program can change *)
}.

(** [type Handler func(Session)]: a function value, or [nil]. *)
Definition Handler `{Types} : Type := option HandlerFunc.

Record Server `{Types} : Type := {
  Addr : string;
  Server_Handler : Handler;
  other_fields : Fields
}.

(** The state of the process: the package's one variable,
    [var DefaultHandler Handler], and the rest of the world. *)
Record State `{Types} : Type := {
  DefaultHandler : Handler;
  world : World
}.

(** [type Option], a function from a [Server] pointer to [error]: it
    may change the server it is given, and anything else, and returns
    [nil] or an error. *)
Definition Option `{Types} : Type :=
  Server -> State -> option Error * Server * State.

(** The calls that [Serve] and [ListenAndServe] make on the server, as
    they happen; [CallSetOption] keeps what the call returned. *)
Inductive Call `{Types} : Type :=
| CallSetOption (opt : Option) (err : option Error)
| CallServe (srv : Server) (l : Listener)
| CallListenAndServe (srv : Server).

(** The methods of [*Server] that this file calls; they are defined in
    another file of the package. *)
Class Methods `{Types} : Type := {
  SetOption : Server -> Option -> State -> option Error * Server * State;
  Server_Serve : Server -> Listener -> State -> option Error * State;
  Server_ListenAndServe : Server -> State -> option Error * State
}.

(** What a call of [Serve] or [ListenAndServe] comes to: the error it
    returns, the state it leaves, the calls it made. *)
Record Run `{Types} : Type := {
  returned : option Error;
  final : State;
  calls : list Call
}.

(** The loop that both functions start with,

      for _, option := range options {
              if err := srv.SetOption(option); err != nil { return err }
      }

    An error in the first component stands for the [return err]. *)
Fixpoint range_options `{Methods} (srv : Server) (options : list Option) (st : State)
  : option Error * Server * State * list Call :=
  match options with
  | [] => (None, srv, st, [])
  | opt :: options' =>
      let '(err, srv', st') := SetOption srv opt st in
      match err with
      | Some _ => (err, srv', st', [CallSetOption opt err])
      | None =>
          let '(err', srv'', st'', cs) := range_options srv' options' st' in
          (err', srv'', st'', CallSetOption opt None :: cs)
      end
  end.

Definition Serve `{Methods} (l : Listener) (handler : Handler) (options : list Option)
  (st : State) : Run :=
  let srv := {| Addr := ""; Server_Handler := handler; other_fields := zero_fields |} in
  match range_options srv options st with
  | (Some err, _, st', cs) =>
      {| returned := Some err; final := st'; calls := cs |}
  | (None, srv', st', cs) =>
      let '(err, st'') := Server_Serve srv' l st' in
      {| returned := err; final := st''; calls := cs ++ [CallServe srv' l] |}
  end.

Definition ListenAndServe `{Methods} (addr : string) (handler : Handler)
  (options : list Option) (st : State) : Run :=
  let srv := {| Addr := addr; Server_Handler := handler; other_fields := zero_fields |} in
  match range_options srv options st with
  | (Some err, _, st', cs) =>
      {| returned := Some err; final := st'; calls := cs |}
  | (None, srv', st', cs) =>
      let '(err, st'') := Server_ListenAndServe srv' st' in
      {| returned := err; final := st''; calls := cs ++ [CallListenAndServe srv'] |}
  end.

(** [Handle]: [DefaultHandler = handler]. *)
Definition Handle `{Types} (handler : Handler) (st : State) : State :=
  {| DefaultHandler := handler; world := world st |}.

(** ** Vocabulary for the statements about start-up *)

(** The options of [options] all return [nil] when they are applied one
    after the other from [srv] and [st], and leave [srv'] and [st']. *)
Inductive all_applied `{Methods} : Server -> State -> list Option -> Server -> State -> Prop :=
| applied_nil srv st : all_applied srv st [] srv st
| applied_cons srv st opt srv1 st1 options srv' st' :
    SetOption srv opt st = (None, srv1, st1) ->
    all_applied srv1 st1 options srv' st' ->
    all_applied srv st (opt :: options) srv' st'.

(** The calls that applying [options] with no error leaves behind. *)
Definition applied_calls `{Types} (options : list Option) : list Call :=
  map (fun opt => CallSetOption opt None) options.

(** The run began to serve: it reached [srv.Serve] or
    [srv.ListenAndServe]. *)
Definition is_serving `{Types} (c : Call) : bool :=
  match c with
  | CallSetOption _ _ => false
  | CallServe _ _ => true
  | CallListenAndServe _ => true
  end.

Definition began_serving `{Types} (r : Run) : bool := existsb is_serving (calls r).

(** The same server under another address. *)
Definition with_Addr `{Types} (a : string) (srv : Server) : Server :=
  {| Addr := a; Server_Handler := Server_Handler srv;
     other_fields := other_fields srv |}.

(** An option that neither reads nor writes the server's address. *)
Definition leaves_Addr `{Methods} (opt : Option) : Prop :=
  forall a srv st,
    SetOption (with_Addr a srv) opt st =
    let '(err, srv', st') := SetOption srv opt st in
    (err, with_Addr a srv', st').

(** ** Opening a listener *)

(** [net.Listen("tcp", addr)]: a listener or an error. *)
Class Network `{Types} : Type := {
  Listen : string -> State -> (Listener + Error) * State
}.

(** Modelled from the spec: the [ListenAndServe] method of [Server] is
    defined in another file of the package, which is missing here.  By
    the spec, listening and serving means to open a listener on the
    address and then to serve on it; [serve] is the server's [Serve]
    method. *)
Definition Server_ListenAndServe_model `{Network}
  (serve : Server -> Listener -> State -> option Error * State)
  (srv : Server) (st : State) : option Error * State :=
  match Listen (Addr srv) st with
  | (inr err, st') => (Some err, st')
  | (inl ln, st') => serve srv ln st'
  end.

(** The spec's reading of [ListenAndServe]: open a listener on [addr],
    then call [Serve] with the handler and the options. *)
Definition ListenAndServe_spec `{Methods} `{!Network} (addr : string) (handler : Handler)
  (options : list Option) (st : State) : option Error * State :=
  match Listen addr st with
  | (inr err, st') => (Some err, st')
  | (inl ln, st') =>
      let r := Serve ln handler options st' in
      (returned r, final r)
  end.

(** Start-up stops at an option: the options before it are applied with
    no error, it returns [err] and leaves [st'], and the calls [cs] made
    end with it, so none of the options after it is applied. *)
Definition aborted_at `{Methods} (srv : Server) (st : State) (options : list Option)
  (err : Error) (st' : State) (cs : list Call) : Prop :=
  exists pre opt post srv1 st1 srv2,
    options = pre ++ opt :: post
    /\ all_applied srv st pre srv1 st1
    /\ SetOption srv1 opt st1 = (Some err, srv2, st')
    /\ cs = applied_calls pre ++ [CallSetOption opt (Some err)].

(** ** A small instance, for concrete runs

    Handlers, listeners and errors are named by strings, the other
    fields of a server are the settings made so far, and the world is
    the list of the addresses on which a listener is open. *)

Definition demo_types : Types :=
  {| HandlerFunc := string; Listener := string; Error := string;
     Fields := list string; zero_fields := []; World := list string |}.

Definition demo_state : @State demo_types :=
  @Build_State demo_types None [].

Definition demo_network : @Network demo_types :=
  @Build_Network demo_types
    (fun addr st =>
       (inl addr, @Build_State demo_types (@DefaultHandler demo_types st)
                    (addr :: @world demo_types st))).

(** A listener that is already open. *)
Definition demo_listener : @Listener demo_types := "ln"%string.

(** Another one. *)
Definition other_listener : @Listener demo_types := "other"%string.

(** A [Serve] method whose listener is closed at once. *)
Definition demo_serve (srv : @Server demo_types) (l : string)
  (st : @State demo_types) : option string * @State demo_types :=
  (None, st).

Definition demo_methods : @Methods demo_types :=
  @Build_Methods demo_types
    (fun srv opt st => opt srv st)
    demo_serve
    (@Server_ListenAndServe_model demo_types demo_network demo_serve).

(** An option that fails validation. *)
Definition reject : @Option demo_types :=
  fun srv st => (Some "invalid option"%string, srv, st).

(** An option that makes a setting. *)
Definition setting (s : string) : @Option demo_types :=
  fun srv st =>
    (None,
     @Build_Server demo_types (@Addr demo_types srv)
       (@Server_Handler demo_types srv) (s :: @other_fields demo_types srv),
     st).

Definition key_abc : RawKey := {| raw := ["a"; "b"; "c"]%byte |}.
Definition key_abd : RawKey := {| raw := ["a"; "b"; "d"]%byte |}.
Definition key_ab : RawKey := {| raw := ["a"; "b"]%byte |}.

(** A network on which no listener can be opened. *)
Definition bind_fails : @Network demo_types :=
  @Build_Network demo_types
    (fun addr st => (inr "address already in use"%string, st)).

(** A [Serve] method that leaves a mark in the world when it is
    entered. *)
Definition marking_serve (srv : @Server demo_types) (l : string)
  (st : @State demo_types) : option string * @State demo_types :=
  (None,
   @Build_State demo_types (@DefaultHandler demo_types st)
     ("serving"%string :: @world demo_types st)).

(** The methods of a server on that network. *)
Definition bind_fails_methods : @Methods demo_types :=
  @Build_Methods demo_types
    (fun srv opt st => opt srv st)
    marking_serve
    (@Server_ListenAndServe_model demo_types bind_fails marking_serve).

(** ** The PTY state of a session *)











(* ================================================================== *)
(** * Properties *)

(** ** Bytes and machine words *)

Lemma byte_val_range (b : byte) : 0 <= byte_val b < 2 ^ 8.
Proof.
  unfold byte_val. pose proof (Byte.to_N_bounded b). lia.
Qed.

Lemma byte_val_inj (a b : byte) : byte_val a = byte_val b -> a = b.
Proof.
  unfold byte_val. intros E. apply N2Z.inj in E.
  pose proof (Byte.of_to_N a) as Ha. rewrite E, Byte.of_to_N in Ha.
  congruence.
Qed.

Lemma uint8_range (z : Z) : 0 <= uint8 z < 2 ^ 8.
Proof. unfold uint8. apply Z.mod_pos_bound. lia. Qed.

Lemma uint8_small (z : Z) : 0 <= z < 2 ^ 8 -> uint8 z = z.
Proof. unfold uint8. apply Z.mod_small. Qed.

Lemma uint8_lor (a b : Z) : uint8 (Z.lor a b) = Z.lor (uint8 a) (uint8 b).
Proof.
  unfold uint8. rewrite <- !Z.land_ones by lia. apply Z.land_lor_distr_l.
Qed.

Lemma uint8_lxor (a b : Z) : uint8 (Z.lxor a b) = Z.lxor (uint8 a) (uint8 b).
Proof.
  unfold uint8. rewrite <- !Z.land_ones by lia.
  apply Z.bits_inj'. intros n Hn.
  rewrite Z.land_spec, !Z.lxor_spec, !Z.land_spec.
  destruct (Z.testbit a n), (Z.testbit b n), (Z.testbit (Z.ones 8) n); reflexivity.
Qed.

(** On bytes the [uint8] of the loop body changes nothing. *)
Lemma round_bytes (x y : list byte) (v : Z) (i : nat) :
  0 <= v < 2 ^ 8 ->
  subtle.round x y v i = Z.lor v (Z.lxor (subtle.index x i) (subtle.index y i)).
Proof.
  intros Hv. unfold subtle.round, subtle.index.
  rewrite uint8_lor, uint8_lxor.
  rewrite (uint8_small v) by assumption.
  rewrite !uint8_small by apply byte_val_range.
  reflexivity.
Qed.

(** The accumulator ends at zero exactly when it starts at zero and
    every pair of bytes visited is a pair of equal bytes. *)
Lemma rounds_zero (x y : list byte) (idx : list nat) :
  forall v, 0 <= v < 2 ^ 8 ->
    fold_left (subtle.round x y) idx v = 0 <->
    v = 0 /\ forall i, In i idx -> subtle.index x i = subtle.index y i.
Proof.
  induction idx as [|i idx IH]; intros v Hv; simpl.
  - split; [intros E; split; [exact E | intros ? []] | intros [E _]; exact E].
  - rewrite IH by apply uint8_range.
    rewrite round_bytes by assumption.
    rewrite Z.lor_eq_0_iff, Z.lxor_eq_0_iff.
    split.
    + intros [[E0 Ei] Hrest]. split; [exact E0|].
      intros j [<- | Hj]; auto.
    + intros [E0 Hall]. repeat split; auto.
Qed.

Lemma ConstantTimeByteEq_zero (v : Z) :
  0 <= v < 2 ^ 8 ->
  subtle.ConstantTimeByteEq v 0 = if v =? 0 then 1 else 0.
Proof.
  intros Hv. unfold subtle.ConstantTimeByteEq, uint32.
  rewrite Z.lxor_0_r, Z.shiftr_div_pow2 by lia.
  rewrite (Z.mod_small v) by lia.
  destruct (Z.eqb_spec v 0) as [-> | Hne].
  - reflexivity.
  - rewrite Z.mod_small by lia. apply Z.div_small. lia.
Qed.

(** What [ConstantTimeCompare] computes: 1 on equal slices, else 0. *)
Lemma ConstantTimeCompare_spec (x y : list byte) :
  (x = y -> subtle.ConstantTimeCompare x y = 1)
  /\ (x <> y -> subtle.ConstantTimeCompare x y = 0).
Proof.
  unfold subtle.ConstantTimeCompare.
  destruct (Nat.eqb_spec (length x) (length y)) as [Hlen | Hlen]; simpl.
  - set (v := fold_left (subtle.round x y) (seq 0 (length x)) 0).
    assert (Hv : 0 <= v < 2 ^ 8).
    { subst v. destruct (length x) as [|n]; [simpl; lia|].
      rewrite seq_S, fold_left_app. simpl. apply uint8_range. }
    rewrite ConstantTimeByteEq_zero by exact Hv.
    assert (Hz : v = 0 <-> x = y).
    { subst v. rewrite rounds_zero by lia. split.
      - intros [_ Hall].
        apply (nth_ext x y "000"%byte "000"%byte Hlen).
        intros i Hi. apply byte_val_inj. apply Hall.
        apply in_seq. lia.
      - intros ->. split; [reflexivity | reflexivity]. }
    split; intros E.
    + apply Hz in E. rewrite E. reflexivity.
    + destruct (Z.eqb_spec v 0) as [E0 | _]; [|reflexivity].
      apply Hz in E0. contradiction.
  - split; [|reflexivity].
    intros ->. contradiction.
Qed.

Lemma ConstantTimeCompare_eqb (x y : list byte) :
  (subtle.ConstantTimeCompare x y =? 1) = true <-> x = y.
Proof.
  destruct (ConstantTimeCompare_spec x y) as [Heq Hne].
  split.
  - intros E. apply Z.eqb_eq in E.
    destruct (list_eq_dec Byte.byte_eq_dec x y) as [H | H]; [exact H|].
    rewrite (Hne H) in E. discriminate.
  - intros E. rewrite (Heq E). reflexivity.
Qed.

(** ** KeysEqual *)

Section KeyComparator.

Context {K : Type} `{PublicKeyImpl K}.

(** On two keys [KeysEqual] decides the equality of the encodings. *)
Lemma KeysEqual_Some (ka kb : K) :
  KeysEqual (Some ka) (Some kb) = true <-> Marshal ka = Marshal kb.
Proof.
  unfold KeysEqual. rewrite andb_true_iff, ConstantTimeCompare_eqb, Nat.eqb_eq.
  split; [intros [_ E]; exact E | intros E; rewrite E; auto].
Qed.

(** C1. [KeysEqual ak bk] is [false] as soon as one of the two keys is
    [nil], and so when both are: no key is equal to nothing. *)
Theorem KeysEqual_nil (ak bk : PublicKey K) :
  ak = None \/ bk = None -> KeysEqual ak bk = false.
Proof.
  intros [-> | ->]; [reflexivity|].
  destruct ak; reflexivity.
Qed.

(** C7. A key is equal to itself: [KeysEqual k k] is [true] for every
    key [k] that is not [nil]. *)
Theorem KeysEqual_refl (k : K) : KeysEqual (Some k) (Some k) = true.
Proof. apply KeysEqual_Some. reflexivity. Qed.

(** C10. [KeysEqual ak bk] is [true] exactly when both keys are there
    and marshal to the same bytes; encodings of different lengths are
    never equal, and the order of the arguments does not matter. *)
Theorem KeysEqual_iff (ak bk : PublicKey K) :
  (KeysEqual ak bk = true <->
   exists ka kb, ak = Some ka /\ bk = Some kb /\ Marshal ka = Marshal kb)
  /\ (forall ka kb, ak = Some ka -> bk = Some kb ->
      length (Marshal ka) <> length (Marshal kb) -> KeysEqual ak bk = false)
  /\ KeysEqual ak bk = KeysEqual bk ak.
Proof.
  split; [|split].
  - split.
    + destruct ak as [ka|], bk as [kb|]; try discriminate.
      intros E. exists ka, kb. rewrite <- KeysEqual_Some. auto.
    + intros (ka & kb & -> & -> & E). apply KeysEqual_Some, E.
  - intros ka kb -> -> Hlen.
    apply not_true_is_false. rewrite KeysEqual_Some. congruence.
  - destruct ak as [ka|], bk as [kb|]; try reflexivity.
    apply eq_true_iff_eq. rewrite !KeysEqual_Some. split; congruence.
Qed.

(** *** What the comparison leaks *)

(** The marks that [n] iterations of the loop starting at index [from]
    leave, and the failing loop test that ends them. *)
Lemma loop_run (x y : list byte) (todo : nat) :
  forall from v,
    timed.loop x y from todo v =
    (fold_left (subtle.round x y) (seq from todo) v,
     flat_map (fun i => [Branch true; Load i; Load i]) (seq from todo)
     ++ [Branch false]).
Proof.
  induction todo as [|n IH]; intros from v.
  - reflexivity.
  - cbn [timed.loop seq fold_left flat_map].
    unfold bind, branch, load. rewrite IH. reflexivity.
Qed.

Lemma timed_ConstantTimeCompare_run (x y : list byte) :
  timed.ConstantTimeCompare x y =
  (subtle.ConstantTimeCompare x y,
   if Nat.eqb (length x) (length y)
   then Branch false
        :: flat_map (fun i => [Branch true; Load i; Load i]) (seq 0 (length x))
        ++ [Branch false]
   else [Branch true]).
Proof.
  unfold timed.ConstantTimeCompare, subtle.ConstantTimeCompare, bind, branch.
  destruct (Nat.eqb (length x) (length y)); simpl.
  - rewrite loop_run. simpl. rewrite app_nil_r. reflexivity.
  - reflexivity.
Qed.

(** C2. Two keys that are there are compared in constant time, in the
    sense that the trace of jumps taken and slice indices read is a
    function of the two lengths alone: the length test comes first;
    when the lengths differ nothing of the contents is read; when they
    agree the comparison body follows and reads every index once in
    each slice, whether or where the contents differ.  So the runs on
    any two pairs of encodings with the same lengths leave the same
    trace.  The result is that of [KeysEqual]. *)
Theorem KeysEqual_constant_time (ka kb : K) :
  let a := Marshal ka in
  let b := Marshal kb in
  value (timed.KeysEqual (Some ka) (Some kb)) = KeysEqual (Some ka) (Some kb)
  /\ leakage (timed.KeysEqual (Some ka) (Some kb)) =
     [Branch false; Branch false; Branch (Nat.eqb (length a) (length b))]
     ++ (if Nat.eqb (length a) (length b)
         then leakage (timed.ConstantTimeCompare a b) else [])
  /\ (length a = length b ->
      leakage (timed.ConstantTimeCompare a b) =
      Branch false
      :: flat_map (fun i => [Branch true; Load i; Load i]) (seq 0 (length a))
      ++ [Branch false])
  /\ (forall ka' kb' : K,
      length (Marshal ka') = length a -> length (Marshal kb') = length b ->
      leakage (timed.KeysEqual (Some ka') (Some kb')) =
      leakage (timed.KeysEqual (Some ka) (Some kb))
      /\ steps (timed.KeysEqual (Some ka') (Some kb')) =
         steps (timed.KeysEqual (Some ka) (Some kb))).
Proof.
  intros a b.
  assert (Hrun : forall k1 k2 : K,
    timed.KeysEqual (Some k1) (Some k2) =
    (KeysEqual (Some k1) (Some k2),
     [Branch false; Branch false;
      Branch (Nat.eqb (length (Marshal k1)) (length (Marshal k2)))]
     ++ (if Nat.eqb (length (Marshal k1)) (length (Marshal k2))
         then leakage (timed.ConstantTimeCompare (Marshal k1) (Marshal k2))
         else []))).
  { intros k1 k2. unfold timed.KeysEqual, KeysEqual, bind, branch, ret.
    rewrite timed_ConstantTimeCompare_run.
    destruct (Nat.eqb (length (Marshal k1)) (length (Marshal k2))); simpl.
    - rewrite !app_nil_r. reflexivity.
    - reflexivity. }
  split; [|split; [|split]].
  - rewrite Hrun. reflexivity.
  - rewrite Hrun. reflexivity.
  - intros Hlen. rewrite timed_ConstantTimeCompare_run.
    apply Nat.eqb_eq in Hlen. rewrite Hlen. reflexivity.
  - intros ka' kb' Ha Hb.
    assert (E : leakage (timed.KeysEqual (Some ka') (Some kb')) =
                leakage (timed.KeysEqual (Some ka) (Some kb))).
    { rewrite !Hrun. unfold leakage; simpl.
      rewrite !timed_ConstantTimeCompare_run. simpl.
      fold a b. rewrite Ha, Hb. reflexivity. }
    split; [exact E | unfold steps; rewrite E; reflexivity].
Qed.

End KeyComparator.

(** ** Start-up: Serve and ListenAndServe *)

Section Startup.

Context `{M : Methods}.

Lemma applied_calls_not_serving (options : list Option) :
  existsb is_serving (applied_calls options) = false.
Proof. induction options as [|opt options IH]; [reflexivity | exact IH]. Qed.

Lemma aborted_not_serving (pre : list Option) (opt : Option) (err : option Error) :
  existsb is_serving (applied_calls pre ++ [CallSetOption opt err]) = false.
Proof. rewrite existsb_app, applied_calls_not_serving. reflexivity. Qed.

(** The loop either goes through all the options, or stops at the
    first one that returns an error. *)
Lemma range_options_cases (options : list Option) :
  forall srv st,
    (exists srv' st',
        all_applied srv st options srv' st'
        /\ range_options srv options st = (None, srv', st', applied_calls options))
    \/ (exists err srv' st' cs,
        aborted_at srv st options err st' cs
        /\ range_options srv options st = (Some err, srv', st', cs)).
Proof.
  induction options as [|opt options IH]; intros srv st.
  - left. exists srv, st. split; [constructor | reflexivity].
  - cbn [range_options].
    destruct (SetOption srv opt st) as [[[e|] srv1] st1] eqn:E.
    + right. exists e, srv1, st1, [CallSetOption opt (Some e)].
      split; [|reflexivity].
      exists [], opt, options, srv, st, srv1.
      repeat split; [constructor | exact E].
    + destruct (IH srv1 st1) as [(srv' & st' & Hall & Hrun)
                                | (err & srv' & st' & cs & Hab & Hrun)];
        rewrite Hrun.
      * left. exists srv', st'. split; [|reflexivity].
        econstructor; eassumption.
      * right. exists err, srv', st', (CallSetOption opt None :: cs).
        split; [|reflexivity].
        destruct Hab as (pre & o & post & s1 & t1 & s2 & -> & Hpre & Ho & ->).
        exists (opt :: pre), o, post, s1, t1, s2.
        repeat split; [econstructor; eassumption | exact Ho].
Qed.

(** C3, as amended.  [Serve] and [ListenAndServe] apply the options in
    the order given, each to the server as the one before left it.  If
    one returns an error, start-up stops there: that error is returned,
    no option after it is applied, and the run never reaches the serving
    call.  This is the only way to return before the serving call: if
    the options all return [nil], the configured server's [Serve] (or
    [ListenAndServe]) method is called, after them, and whatever it
    returns is returned, an error of its own start-up included. *)
Theorem options_in_order (l : Listener) (addr : string) (handler : Handler)
  (options : list Option) (st : State) :
  (let srv := {| Addr := ""; Server_Handler := handler; other_fields := zero_fields |} in
   let r := Serve l handler options st in
   (exists srv' st',
       all_applied srv st options srv' st'
       /\ calls r = applied_calls options ++ [CallServe srv' l]
       /\ (returned r, final r) = Server_Serve srv' l st'
       /\ began_serving r = true)
   \/ (exists err,
       aborted_at srv st options err (final r) (calls r)
       /\ returned r = Some err
       /\ began_serving r = false))
  /\
  (let srv := {| Addr := addr; Server_Handler := handler; other_fields := zero_fields |} in
   let r := ListenAndServe addr handler options st in
   (exists srv' st',
       all_applied srv st options srv' st'
       /\ calls r = applied_calls options ++ [CallListenAndServe srv']
       /\ (returned r, final r) = Server_ListenAndServe srv' st'
       /\ began_serving r = true)
   \/ (exists err,
       aborted_at srv st options err (final r) (calls r)
       /\ returned r = Some err
       /\ began_serving r = false)).
Proof.
  split; intros srv r; subst r; unfold Serve, ListenAndServe; fold srv;
    destruct (range_options_cases options srv st)
      as [(srv' & st' & Hall & Hrun) | (err & srv' & st' & cs & Hab & Hrun)];
    rewrite Hrun.
  - left. exists srv', st'.
    destruct (Server_Serve srv' l st') as [e st'']. cbn.
    repeat split; auto.
    unfold began_serving; cbn. rewrite existsb_app, applied_calls_not_serving.
    reflexivity.
  - right. exists err. cbn. repeat split; auto.
    destruct Hab as (pre & o & post & s1 & t1 & s2 & _ & _ & _ & ->).
    apply aborted_not_serving.
  - left. exists srv', st'.
    destruct (Server_ListenAndServe srv' st') as [e st'']. cbn.
    repeat split; auto.
    unfold began_serving; cbn. rewrite existsb_app, applied_calls_not_serving.
    reflexivity.
  - right. exists err. cbn. repeat split; auto.
    destruct Hab as (pre & o & post & s1 & t1 & s2 & _ & _ & _ & ->).
    apply aborted_not_serving.
Qed.

(** *** The package's state *)

(** The loop changes the state through the options only. *)
Lemma range_options_keeps (P : State -> Prop) (options : list Option) :
  (forall opt srv st, In opt options -> P st -> P (snd (SetOption srv opt st))) ->
  forall srv st, P st -> P (snd (fst (range_options srv options st))).
Proof.
  induction options as [|opt options IH]; intros HP srv st Hst.
  - exact Hst.
  - cbn [range_options].
    pose proof (HP opt srv st (or_introl eq_refl) Hst) as H1.
    destruct (SetOption srv opt st) as [[[e|] srv1] st1]; cbn in H1.
    + exact H1.
    + assert (IH' := IH (fun o s t Ho => HP o s t (or_intror Ho)) srv1 st1 H1).
      destruct (range_options srv1 options st1) as [[[e' s'] t'] cs].
      exact IH'.
Qed.

(** C9. [Handle h] makes [h] the [DefaultHandler] and leaves the rest
    of the state as it is.  It is the one place where the package
    writes to its state: whatever holds of the state, and is kept by
    the options and by the methods that [Serve] and [ListenAndServe]
    call, still holds when they return. *)
Theorem Handle_frame :
  (forall (handler : Handler) (st : State),
      DefaultHandler (Handle handler st) = handler
      /\ world (Handle handler st) = world st)
  /\ (forall (P : State -> Prop) (options : list Option),
      (forall opt srv st, In opt options -> P st -> P (snd (SetOption srv opt st))) ->
      (forall srv l st, P st -> P (snd (Server_Serve srv l st))) ->
      (forall srv st, P st -> P (snd (Server_ListenAndServe srv st))) ->
      forall st, P st ->
        (forall l handler, P (final (Serve l handler options st)))
        /\ (forall addr handler,
            P (final (ListenAndServe addr handler options st)))).
Proof.
  split.
  - intros handler st. split; reflexivity.
  - intros P options Hopt Hserve Hlisten st Hst.
    split; [intros l handler | intros addr handler];
      unfold Serve, ListenAndServe;
      match goal with
      | |- context [range_options ?srv ?os ?t] =>
          pose proof (range_options_keeps P os Hopt srv t Hst) as Hk;
          destruct (range_options srv os t) as [[[[e|] s'] t'] cs]
      end; cbn in Hk |- *; auto.
    + specialize (Hserve s' l t' Hk).
      destruct (Server_Serve s' l t'); exact Hserve.
    + specialize (Hlisten s' t' Hk).
      destruct (Server_ListenAndServe s' t'); exact Hlisten.
Qed.

End Startup.

(** ** ListenAndServe and Serve *)

Section Listening.

Context `{M : Methods} `{N : !Network}.

(** Options that leave the address alone do the same to a server
    whatever its address is. *)
Lemma range_options_with_Addr (a : string) (options : list Option) :
  (forall opt, In opt options -> leaves_Addr opt) ->
  forall srv st,
    range_options (with_Addr a srv) options st =
    let '(err, srv', st', cs) := range_options srv options st in
    (err, with_Addr a srv', st', cs).
Proof.
  induction options as [|opt options IH]; intros Hleave srv st.
  - reflexivity.
  - cbn [range_options].
    rewrite (Hleave opt (or_introl eq_refl) a srv st).
    destruct (SetOption srv opt st) as [[[e|] srv1] st1].
    + reflexivity.
    + rewrite IH by (intros o Ho; apply Hleave; right; exact Ho).
      destruct (range_options srv1 options st1) as [[[e' s'] t'] cs].
      reflexivity.
Qed.

(** C8, as amended.  [ListenAndServe addr handler options] starts as
    [Serve l handler options] does, on a server that has [addr] for its
    address: with options that leave the address alone, both make the
    same calls to [SetOption], and if an option fails both return its
    error and leave the same state, with no listener opened.  If none
    fails, [Serve] goes on to serve on [l]; [ListenAndServe] only then
    opens a listener on [addr], and serves on it with the server that
    the options configured. *)
Theorem ListenAndServe_like_Serve (addr : string) (l : Listener) (handler : Handler)
  (options : list Option) (st : State) :
  (forall opt, In opt options -> leaves_Addr opt) ->
  (forall srv t,
      Server_ListenAndServe srv t = Server_ListenAndServe_model Server_Serve srv t) ->
  let r1 := ListenAndServe addr handler options st in
  let r2 := Serve l handler options st in
  (exists err,
      returned r1 = Some err /\ returned r2 = Some err
      /\ final r1 = final r2
      /\ calls r1 = calls r2
      /\ began_serving r1 = false)
  \/ (exists srv' st',
      all_applied
        {| Addr := ""; Server_Handler := handler; other_fields := zero_fields |}
        st options srv' st'
      /\ calls r2 = applied_calls options ++ [CallServe srv' l]
      /\ (returned r2, final r2) = Server_Serve srv' l st'
      /\ calls r1 = applied_calls options ++ [CallListenAndServe (with_Addr addr srv')]
      /\ (returned r1, final r1) =
         match Listen addr st' with
         | (inr err, st'') => (Some err, st'')
         | (inl ln, st'') => Server_Serve (with_Addr addr srv') ln st''
         end).
Proof.
  intros Hleave Hmodel r1 r2. subst r1 r2. unfold ListenAndServe, Serve.
  set (srv := {| Addr := ""; Server_Handler := handler; other_fields := zero_fields |}).
  change {| Addr := addr; Server_Handler := handler; other_fields := zero_fields |}
    with (with_Addr addr srv).
  rewrite (range_options_with_Addr addr options Hleave).
  destruct (range_options_cases options srv st)
    as [(srv' & st' & Hall & Hrun) | (err & srv' & st' & cs & Hab & Hrun)];
    rewrite Hrun.
  - right. exists srv', st'. split; [exact Hall|].
    rewrite Hmodel. unfold Server_ListenAndServe_model.
    change (Addr (with_Addr addr srv')) with addr.
    destruct (Server_Serve srv' l st') as [e2 t2].
    destruct (Listen addr st') as [[ln | e] t1].
    + destruct (Server_Serve (with_Addr addr srv') ln t1) as [e1 t1'].
      cbn. auto.
    + cbn. auto.
  - left. exists err. cbn. repeat split.
    destruct Hab as (pre & o & post & s1 & t1 & s2 & _ & _ & _ & ->).
    apply aborted_not_serving.
Qed.

End Listening.

(** C8, as the spec has it, fails: with an option that is rejected,
    [ListenAndServe] returns before any listener is opened, while
    opening the listener first and then calling [Serve] leaves a
    listener open on the address. *)
Lemma ListenAndServe_not_listen_then_Serve :
  let r := @ListenAndServe demo_types demo_methods ":2222"%string None [reject] demo_state in
  (returned r, final r)
  <> @ListenAndServe_spec demo_types demo_methods demo_network
       ":2222"%string None [reject] demo_state.
Proof. cbv. intros E. discriminate E. Qed.

(** C3, as the spec has it, fails: an option that returns an error is
    not the only error that ends a start-up.  Where no listener can be
    opened, [ListenAndServe] returns the error of the bind, with every
    option applied and none failing, and the server never serves. *)
Lemma bind_failure_is_no_option_error :
  let options := [setting "banner"%string] in
  let r := @ListenAndServe demo_types bind_fails_methods
             ":2222"%string None options demo_state in
  @returned demo_types r = Some "address already in use"%string
  /\ @world demo_types (@final demo_types r) = []
  /\ ~ (exists err,
          @aborted_at demo_types bind_fails_methods
            (@Build_Server demo_types ":2222"%string None [])
            demo_state options err (@final demo_types r) (@calls demo_types r)).
Proof.
  cbv zeta. split; [reflexivity | split; [reflexivity|]].
  intros (err & pre & opt & post & srv1 & st1 & srv2 & Hopts & Hall & Hset & _).
  destruct pre as [|o pre]; cbn in Hopts.
  - injection Hopts as <- <-. inversion Hall; subst.
    cbn in Hset. discriminate Hset.
  - injection Hopts as _ Hnil. destruct pre; discriminate Hnil.
Qed.

(** ** Signals *)

(** C4, as the spec has it, fails: [Signal] is a string type, and a
    string that is none of the thirteen tokens is a [Signal] too. *)
Lemma Signal_not_closed : ~ (forall s : Signal, In s declared_signals).
Proof.
  intros Hclosed. specialize (Hclosed "WINCH"%string).
  cbv in Hclosed. intuition discriminate.
Qed.

(** C4, as amended.  The package declares thirteen signals, which are
    the tokens ABRT, ALRM, FPE, HUP, ILL, INT, KILL, PIPE, QUIT, SEGV,
    TERM, USR1 and USR2, all different; the value of each constant,
    which is what goes on the wire, is its token. *)
Theorem declared_signals_tokens :
  declared_signals =
    ["ABRT"; "ALRM"; "FPE"; "HUP"; "ILL"; "INT"; "KILL";
     "PIPE"; "QUIT"; "SEGV"; "TERM"; "USR1"; "USR2"]%string
  /\ length declared_signals = 13%nat
  /\ NoDup declared_signals.
Proof.
  repeat split.
  repeat (constructor; [cbv; intuition discriminate|]). constructor.
Qed.

(** ** Pty and Window *)

(** C5, as the spec has it, fails: a [Pty] has no room for a terminal
    type.  No reading of a [Pty] gives back the terminal type of every
    window and terminal type it would have been made from. *)
Lemma Pty_has_no_term :
  ~ exists term : Pty -> string,
      forall (w : Window) (t : string),
      exists p : Pty, Pty_Window p = w /\ term p = t.
Proof.
  intros [term Hterm].
  destruct (Hterm {| Width := 80; Height := 24 |} "xterm"%string) as ([w1] & E1 & T1).
  destruct (Hterm {| Width := 80; Height := 24 |} "vt100"%string) as ([w2] & E2 & T2).
  cbn in E1, E2. subst w1 w2. rewrite T1 in T2. discriminate T2.
Qed.

(** C5, as amended.  A [Pty] consists of a window and nothing else:
    windows and [Pty] values correspond one to one. *)
Theorem Pty_is_its_Window :
  (forall w : Window, Pty_Window {| Pty_Window := w |} = w)
  /\ (forall p : Pty, {| Pty_Window := Pty_Window p |} = p).
Proof.
  split; [reflexivity | intros [w]; reflexivity].
Qed.




(** ** Concrete runs *)

Lemma KeysEqual_nil_witness :
  (@None RawKey = None \/ @None RawKey = None)
  /\ KeysEqual (@None RawKey) None = false.
Proof.
  split; [left; reflexivity|].
  apply (KeysEqual_nil None None). left. reflexivity.
Defined.

Lemma KeysEqual_iff_witness :
  KeysEqual (Some key_abc) (Some key_abc) = true
  /\ KeysEqual (Some key_abc) (Some key_ab) = false.
Proof.
  split.
  - apply (proj1 (KeysEqual_iff (Some key_abc) (Some key_abc))).
    exists key_abc, key_abc. repeat split.
  - apply (proj1 (proj2 (KeysEqual_iff (Some key_abc) (Some key_ab)))
             key_abc key_ab eq_refl eq_refl).
    cbn. discriminate.
Defined.

Lemma KeysEqual_constant_time_witness :
  leakage (timed.KeysEqual (Some key_abd) (Some key_abc))
  = leakage (timed.KeysEqual (Some key_abc) (Some key_abc))
  /\ steps (timed.KeysEqual (Some key_abd) (Some key_abc))
     = steps (timed.KeysEqual (Some key_abc) (Some key_abc)).
Proof.
  apply (proj2 (proj2 (proj2 (KeysEqual_constant_time key_abc key_abc)))
           key_abd key_abc); reflexivity.
Defined.


Section Runs.

#[local] Existing Instance demo_types.
#[local] Existing Instance demo_methods.
#[local] Existing Instance demo_network.

Lemma Handle_frame_witness :
  DefaultHandler
    (final (ListenAndServe ":2222"%string None
              [setting "banner"%string; reject] demo_state))
  = None.
Proof.
  refine (proj2 (proj2 Handle_frame
                   (fun st => DefaultHandler st = None)
                   [setting "banner"%string; reject] _ _ _
                   demo_state eq_refl)
            ":2222"%string None).
  - intros opt srv st [<- | [<- | []]] Hst; exact Hst.
  - intros srv l st Hst. exact Hst.
  - intros srv st Hst. exact Hst.
Defined.

Lemma ListenAndServe_like_Serve_witness :
  let options := [setting "banner"%string] in
  let r1 := ListenAndServe ":2222"%string None options demo_state in
  let r2 := Serve demo_listener None options demo_state in
  (exists err,
      returned r1 = Some err /\ returned r2 = Some err
      /\ final r1 = final r2
      /\ calls r1 = calls r2
      /\ began_serving r1 = false)
  \/ (exists srv' st',
      all_applied
        {| Addr := ""; Server_Handler := None; other_fields := zero_fields |}
        demo_state options srv' st'
      /\ calls r2 = applied_calls options ++ [CallServe srv' demo_listener]
      /\ (returned r2, final r2) = Server_Serve srv' demo_listener st'
      /\ calls r1 = applied_calls options
                    ++ [CallListenAndServe (with_Addr ":2222"%string srv')]
      /\ (returned r1, final r1) =
         match Listen ":2222"%string st' with
         | (inr err, st'') => (Some err, st'')
         | (inl ln, st'') => Server_Serve (with_Addr ":2222"%string srv') ln st''
         end).
Proof.
  apply (ListenAndServe_like_Serve
           ":2222"%string demo_listener None [setting "banner"%string] demo_state).
  - intros opt [<- | []] a srv st. reflexivity.
  - intros srv t. reflexivity.
Defined.

(** Three options, the second of which is rejected: the first is
    applied, the third is not, and the server never serves. *)
Example Serve_stops_at_rejected_option :
  Serve demo_listener None
    [setting "banner"%string; reject; setting "motd"%string] demo_state
  = {| returned := Some "invalid option"%string;
       final := demo_state;
       calls := [CallSetOption (setting "banner"%string) None;
                 CallSetOption reject (Some "invalid option"%string)] |}.
Proof. reflexivity. Qed.

(** Two options that are accepted: the server that serves has both
    settings, the later one on top. *)
Example Serve_applies_in_order :
  calls (Serve demo_listener None
           [setting "banner"%string; setting "motd"%string] demo_state)
  = [CallSetOption (setting "banner"%string) None;
     CallSetOption (setting "motd"%string) None;
     CallServe {| Addr := ""; Server_Handler := None;
                  other_fields := ["motd"; "banner"]%string |} demo_listener].
Proof. reflexivity. Qed.

Example KeysEqual_differs_in_last_byte :
  KeysEqual (Some key_abc) (Some key_abd) = false.
Proof. reflexivity. Qed.

Example KeysEqual_trace_abc_abd :
  leakage (timed.KeysEqual (Some key_abc) (Some key_abd))
  = [Branch false; Branch false; Branch true; Branch false;
     Branch true; Load 0; Load 0; Branch true; Load 1; Load 1;
     Branch true; Load 2; Load 2; Branch false].
Proof. reflexivity. Qed.

End Runs.

(* ================================================================== *)
(** * Further properties of the code *)

(** ** KeysEqual, continued *)

Section KeyComparatorMore.

Context {K : Type} `{PublicKeyImpl K}.

(** X1. [KeysEqual] is transitive: with the symmetry and reflexivity
    shown above, it is an equivalence on the keys that are there. *)
Theorem KeysEqual_trans (ak bk ck : PublicKey K) :
  KeysEqual ak bk = true -> KeysEqual bk ck = true -> KeysEqual ak ck = true.
Proof.
  destruct ak as [ka|], bk as [kb|], ck as [kc|]; try discriminate.
  rewrite !KeysEqual_Some. congruence.
Qed.

(** X2. The test [len(a) == len(b)] in [KeysEqual] never changes the
    result: on two keys that are there, [KeysEqual] returns what
    [subtle.ConstantTimeCompare(a, b) == 1] alone returns. *)
Theorem KeysEqual_length_test_redundant (ka kb : K) :
  KeysEqual (Some ka) (Some kb)
  = (subtle.ConstantTimeCompare (Marshal ka) (Marshal kb) =? 1).
Proof.
  unfold KeysEqual.
  destruct (Nat.eqb_spec (length (Marshal ka)) (length (Marshal kb))) as [E | E].
  - reflexivity.
  - destruct (ConstantTimeCompare_spec (Marshal ka) (Marshal kb)) as [_ Hne].
    rewrite Hne by congruence. reflexivity.
Qed.

(** X3. Where no two keys marshal to the same bytes, [KeysEqual] on two
    keys that are there is [true] for the same key only. *)
Theorem KeysEqual_same_key (ka kb : K) :
  (forall a b : K, Marshal a = Marshal b -> a = b) ->
  (KeysEqual (Some ka) (Some kb) = true <-> ka = kb).
Proof.
  intros Hinj. rewrite KeysEqual_Some. split.
  - apply Hinj.
  - intros ->. reflexivity.
Qed.

(** The run of the instrumented [KeysEqual] on two keys that are there. *)
Lemma timed_KeysEqual_run (ka kb : K) :
  timed.KeysEqual (Some ka) (Some kb) =
  (KeysEqual (Some ka) (Some kb),
   if Nat.eqb (length (Marshal ka)) (length (Marshal kb))
   then [Branch false; Branch false; Branch true; Branch false]
        ++ flat_map (fun i => [Branch true; Load i; Load i])
             (seq 0 (length (Marshal ka)))
        ++ [Branch false]
   else [Branch false; Branch false; Branch false]).
Proof.
  unfold timed.KeysEqual, KeysEqual, bind, branch, ret.
  rewrite timed_ConstantTimeCompare_run.
  destruct (Nat.eqb (length (Marshal ka)) (length (Marshal kb))) eqn:E; simpl.
  - rewrite !app_nil_r. reflexivity.
  - reflexivity.
Qed.

Lemma rounds_length (n : nat) :
  forall from,
    length (flat_map (fun i => [Branch true; Load i; Load i]) (seq from n))
    = (3 * n)%nat.
Proof.
  induction n as [|n IH]; intros from; [reflexivity|].
  cbn [seq flat_map]. rewrite length_app, IH. simpl. lia.
Qed.

Lemma rounds_loads (n : nat) (i : nat) :
  forall from,
    In (Load i) (flat_map (fun i => [Branch true; Load i; Load i]) (seq from n)) ->
    (from <= i < from + n)%nat.
Proof.
  intros from Hin. apply in_flat_map in Hin.
  destruct Hin as (j & Hj & Hi). apply in_seq in Hj.
  destruct Hi as [Hi | [Hi | [Hi | []]]]; [discriminate | |];
    injection Hi as ->; exact Hj.
Qed.

(** X4. [KeysEqual] never reads past the end of an encoding: every
    index it reads lies within both slices, and it reads none at all
    unless both keys are there. *)
Theorem KeysEqual_reads_in_bounds (ak bk : PublicKey K) (i : nat) :
  In (Load i) (leakage (timed.KeysEqual ak bk)) ->
  exists ka kb,
    ak = Some ka /\ bk = Some kb
    /\ (i < length (Marshal ka))%nat /\ (i < length (Marshal kb))%nat.
Proof.
  destruct ak as [ka|], bk as [kb|]; try (cbn; intuition discriminate).
  intros Hin. rewrite timed_KeysEqual_run in Hin.
  unfold leakage in Hin; cbn [snd] in Hin.
  exists ka, kb.
  destruct (Nat.eqb_spec (length (Marshal ka)) (length (Marshal kb))) as [E | E].
  - apply in_app_or in Hin. destruct Hin as [Hin | Hin];
      [cbn in Hin; intuition discriminate|].
    apply in_app_or in Hin. destruct Hin as [Hin | Hin];
      [|cbn in Hin; intuition discriminate].
    apply rounds_loads in Hin. repeat split; lia.
  - cbn in Hin. intuition discriminate.
Qed.

(** X5. The number of steps of [KeysEqual] that depend on the input:
    one if the first key is [nil], two if only the second is, three if
    the encodings differ in length, and [3 * n + 5] for two encodings
    of [n] bytes each.  On every input the instrumented code returns
    what [KeysEqual] returns. *)
Theorem KeysEqual_steps (ak bk : PublicKey K) :
  value (timed.KeysEqual ak bk) = KeysEqual ak bk
  /\ steps (timed.KeysEqual ak bk) =
     match ak, bk with
     | None, _ => 1%nat
     | Some _, None => 2%nat
     | Some ka, Some kb =>
         if Nat.eqb (length (Marshal ka)) (length (Marshal kb))
         then (3 * length (Marshal ka) + 5)%nat
         else 3%nat
     end.
Proof.
  destruct ak as [ka|], bk as [kb|]; try (split; reflexivity).
  rewrite timed_KeysEqual_run. unfold value, steps, leakage. cbn [fst snd].
  split; [reflexivity|].
  destruct (Nat.eqb (length (Marshal ka)) (length (Marshal kb))); [|reflexivity].
  rewrite !length_app, rounds_length. simpl. lia.
Qed.

End KeyComparatorMore.

(** X6. [subtle.ConstantTimeCompare], as [KeysEqual] uses it: it
    returns 1 or 0 and nothing else, 1 exactly on two equal slices, and
    the same whichever slice comes first. *)
Theorem ConstantTimeCompare_one_or_zero (x y : list byte) :
  (subtle.ConstantTimeCompare x y = 1 \/ subtle.ConstantTimeCompare x y = 0)
  /\ (subtle.ConstantTimeCompare x y = 1 <-> x = y)
  /\ subtle.ConstantTimeCompare x y = subtle.ConstantTimeCompare y x.
Proof.
  destruct (ConstantTimeCompare_spec x y) as [Heq Hne].
  destruct (ConstantTimeCompare_spec y x) as [Heq' Hne'].
  destruct (list_eq_dec Byte.byte_eq_dec x y) as [E | E].
  - rewrite (Heq E), (Heq' (eq_sym E)).
    split; [left; reflexivity | split; [tauto | reflexivity]].
  - rewrite (Hne E), (Hne' (fun E' => E (eq_sym E'))).
    split; [right; reflexivity | split; [|reflexivity]].
    split; [discriminate | contradiction].
Qed.

(** ** Start-up, continued *)

Section StartupMore.

Context `{M : Methods}.

(** The loop over a list of options in two parts: the second part is
    run from where the first part ends, unless the first part stops. *)
Lemma range_options_app (xs ys : list Option) :
  forall srv st,
    range_options srv (xs ++ ys) st =
    match range_options srv xs st with
    | (Some err, srv1, st1, cs) => (Some err, srv1, st1, cs)
    | (None, srv1, st1, cs) =>
        let '(err, srv2, st2, cs') := range_options srv1 ys st1 in
        (err, srv2, st2, cs ++ cs')
    end.
Proof.
  induction xs as [|opt xs IH]; intros srv st.
  - cbn. destruct (range_options srv ys st) as [[[e s] t] cs]. reflexivity.
  - cbn [app range_options].
    destruct (SetOption srv opt st) as [[[e|] srv1] st1]; [reflexivity|].
    rewrite IH.
    destruct (range_options srv1 xs st1) as [[[[e|] s] t] cs]; [reflexivity|].
    destruct (range_options s ys t) as [[[e' s'] t'] cs']. reflexivity.
Qed.

Lemma range_options_all_applied (options : list Option) :
  forall srv st srv' st',
    all_applied srv st options srv' st' ->
    range_options srv options st = (None, srv', st', applied_calls options).
Proof.
  induction options as [|opt options IH]; intros srv st srv' st' Hall;
    inversion Hall; subst.
  - reflexivity.
  - cbn [range_options].
    match goal with E : SetOption _ _ _ = _ |- _ => rewrite E end.
    erewrite IH by eassumption. reflexivity.
Qed.

Lemma served_began (cs : list Call) (c : Call) :
  is_serving c = true -> existsb is_serving (cs ++ [c]) = true.
Proof.
  intros Hc. rewrite existsb_app. cbn. rewrite Hc. apply orb_true_iff. auto.
Qed.

(** X7. Options compose: once the options [xs] are applied with no
    error, going through [xs ++ ys] is going through [ys] from the
    server and the state that [xs] left, after the calls for [xs]. *)
Theorem options_compose (xs ys : list Option) (srv srv1 : Server) (st st1 : State) :
  all_applied srv st xs srv1 st1 ->
  range_options srv (xs ++ ys) st =
  let '(err, srv2, st2, cs) := range_options srv1 ys st1 in
  (err, srv2, st2, applied_calls xs ++ cs).
Proof.
  intros Hall. rewrite range_options_app.
  rewrite (range_options_all_applied xs srv st srv1 st1 Hall).
  reflexivity.
Qed.

(** X8. A start-up that stops at an option is blind to what comes
    after: with any further options appended, [Serve] and
    [ListenAndServe] return the same error, leave the same state and
    make the same calls. *)
Theorem abort_ignores_later_options (l : Listener) (addr : string) (handler : Handler)
  (xs ys : list Option) (st : State) :
  (began_serving (Serve l handler xs st) = false ->
   Serve l handler (xs ++ ys) st = Serve l handler xs st)
  /\ (began_serving (ListenAndServe addr handler xs st) = false ->
      ListenAndServe addr handler (xs ++ ys) st = ListenAndServe addr handler xs st).
Proof.
  split; unfold Serve, ListenAndServe, began_serving;
    rewrite range_options_app;
    match goal with
    | |- context [range_options ?srv xs st] =>
        destruct (range_options srv xs st) as [[[[e|] s] t] cs]
    end; try reflexivity.
  - destruct (Server_Serve s l t) as [e t']. cbn [calls].
    rewrite served_began by reflexivity. discriminate.
  - destruct (Server_ListenAndServe s t) as [e t']. cbn [calls].
    rewrite served_began by reflexivity. discriminate.
Qed.

(** X9. A start-up that stops at an option does not depend on the
    listener: [Serve] does the same on any other listener, which it
    never touches. *)
Theorem abort_ignores_listener (l l' : Listener) (handler : Handler)
  (options : list Option) (st : State) :
  began_serving (Serve l handler options st) = false ->
  Serve l' handler options st = Serve l handler options st.
Proof.
  unfold Serve, began_serving.
  match goal with
  | |- context [range_options ?srv options st] =>
      destruct (range_options srv options st) as [[[[e|] s] t] cs]
  end; [reflexivity|].
  destruct (Server_Serve s l t) as [e t']. cbn [calls].
  rewrite served_began by reflexivity. discriminate.
Qed.

(** X10. A [nil] result means that the server served: every option was
    applied with no error, the serving method was called on the
    configured server, and it is that call which returned [nil]. *)
Theorem nil_means_served (l : Listener) (addr : string) (handler : Handler)
  (options : list Option) (st : State) :
  (let r := Serve l handler options st in
   returned r = None ->
   exists srv' st',
     all_applied
       {| Addr := ""; Server_Handler := handler; other_fields := zero_fields |}
       st options srv' st'
     /\ calls r = applied_calls options ++ [CallServe srv' l]
     /\ Server_Serve srv' l st' = (None, final r))
  /\ (let r := ListenAndServe addr handler options st in
      returned r = None ->
      exists srv' st',
        all_applied
          {| Addr := addr; Server_Handler := handler; other_fields := zero_fields |}
          st options srv' st'
        /\ calls r = applied_calls options ++ [CallListenAndServe srv']
        /\ Server_ListenAndServe srv' st' = (None, final r)).
Proof.
  split; intros r; subst r; unfold Serve, ListenAndServe;
    match goal with
    | |- context [range_options ?srv options st] =>
        destruct (range_options_cases options srv st)
          as [(srv' & st' & Hall & Hrun) | (err & srv' & st' & cs & Hab & Hrun)];
        rewrite Hrun
    end; try (cbn; discriminate).
  - destruct (Server_Serve srv' l st') as [e t'] eqn:E. cbn.
    intros ->. exists srv', st'. rewrite E. auto.
  - destruct (Server_ListenAndServe srv' st') as [e t'] eqn:E. cbn.
    intros ->. exists srv', st'. rewrite E. auto.
Qed.

Lemma in_applied_calls (options : list Option) (c : Call) :
  In c (applied_calls options) -> exists opt, c = CallSetOption opt None.
Proof.
  unfold applied_calls. rewrite in_map_iff.
  intros (opt & <- & _). exists opt. reflexivity.
Qed.

(** The calls of a list of options applied, and one more: where each
    call stands. *)
Lemma nth_error_calls (xs : list Option) (c c' : Call) (i : nat) :
  nth_error (applied_calls xs ++ [c]) i = Some c' ->
  (exists opt, nth_error xs i = Some opt /\ c' = CallSetOption opt None)
  \/ (i = length xs /\ c' = c).
Proof.
  assert (Hlen : length (applied_calls xs) = length xs)
    by apply length_map.
  destruct (Nat.lt_ge_cases i (length xs)) as [Hi | Hi].
  - rewrite nth_error_app1 by lia. unfold applied_calls.
    rewrite nth_error_map.
    destruct (nth_error xs i) as [opt|]; cbn; [|discriminate].
    intros [= <-]. left. exists opt. auto.
  - rewrite nth_error_app2 by lia. rewrite Hlen.
    destruct (i - length xs)%nat as [|k] eqn:Ek; cbn.
    + intros [= <-]. right. split; [lia | reflexivity].
    + destruct k; discriminate.
Qed.

(** The calls of a start-up that goes through all the options. *)
Lemma served_calls (options : list Option) (c : Call) :
  is_serving c = true ->
  let cs := applied_calls options ++ [c] in
  (forall i opt err,
      nth_error cs i = Some (CallSetOption opt err) ->
      nth_error options i = Some opt /\ (err <> None -> length cs = S i))
  /\ (forall i c',
      is_serving c' = true -> nth_error cs i = Some c' ->
      i = length options /\ c' = c)
  /\ (length cs <= S (length options))%nat.
Proof.
  intros Hc cs. subst cs. split; [|split].
  - intros i opt err Hi. apply nth_error_calls in Hi.
    destruct Hi as [(o & Ho & E) | (_ & E)].
    + injection E as -> ->. split; [exact Ho | intros Hn; contradiction].
    + rewrite <- E in Hc. discriminate Hc.
  - intros i c' Hc' Hi. apply nth_error_calls in Hi.
    destruct Hi as [(o & _ & ->) | Hi]; [discriminate Hc' | exact Hi].
  - unfold applied_calls. rewrite length_app, length_map. simpl. lia.
Qed.

(** The calls of a start-up that stops at an option. *)
Lemma aborted_calls (pre post : list Option) (o : Option) (e : Error) :
  let options := pre ++ o :: post in
  let cs := applied_calls pre ++ [CallSetOption o (Some e)] in
  (forall i opt err,
      nth_error cs i = Some (CallSetOption opt err) ->
      nth_error options i = Some opt /\ (err <> None -> length cs = S i))
  /\ (forall i c', is_serving c' = true -> nth_error cs i <> Some c')
  /\ (length cs <= S (length options))%nat.
Proof.
  intros options cs. subst options cs. split; [|split].
  - intros i opt err Hi.
    pose proof (nth_error_calls _ _ _ _ Hi) as [(o' & Ho & E) | (-> & E)].
    + injection E as -> ->. split; [|intros Hn; contradiction].
      rewrite nth_error_app1; [exact Ho|].
      apply nth_error_Some. congruence.
    + injection E as -> ->. split.
      * rewrite nth_error_app2 by lia. rewrite Nat.sub_diag. reflexivity.
      * intros _. unfold applied_calls.
        rewrite length_app, length_map. simpl. lia.
  - intros i c' Hc' Hi. apply nth_error_calls in Hi.
    destruct Hi as [(o' & _ & ->) | (_ & ->)]; discriminate Hc'.
  - unfold applied_calls. rewrite !length_app, length_map. simpl. lia.
Qed.

(** X11. The calls of a start-up.  The call in place [i], if it is a
    call of [SetOption], applies the option in place [i] of the list:
    each option is applied at most once, in its turn, and a call that
    returns an error is the last call.  [Serve] serves on the listener
    it was given and on no other, in the one call that comes after
    those for all the options, and never calls the server's
    [ListenAndServe]; [ListenAndServe] never calls the server's
    [Serve] itself. *)
Theorem startup_calls (l : Listener) (addr : string) (handler : Handler)
  (options : list Option) (st : State) :
  (let r := Serve l handler options st in
   (forall i opt err,
       nth_error (calls r) i = Some (CallSetOption opt err) ->
       nth_error options i = Some opt
       /\ (err <> None -> length (calls r) = S i))
   /\ (forall srv, ~ In (CallListenAndServe srv) (calls r))
   /\ (forall i srv l',
       nth_error (calls r) i = Some (CallServe srv l') ->
       i = length options /\ l' = l
       /\ calls r = applied_calls options ++ [CallServe srv l])
   /\ (length (calls r) <= S (length options))%nat)
  /\ (let r := ListenAndServe addr handler options st in
      (forall i opt err,
          nth_error (calls r) i = Some (CallSetOption opt err) ->
          nth_error options i = Some opt
          /\ (err <> None -> length (calls r) = S i))
      /\ (forall srv l', ~ In (CallServe srv l') (calls r))
      /\ (forall i srv,
          nth_error (calls r) i = Some (CallListenAndServe srv) ->
          i = length options
          /\ calls r = applied_calls options ++ [CallListenAndServe srv])
      /\ (length (calls r) <= S (length options))%nat).
Proof.
  split; intros r; subst r; unfold Serve, ListenAndServe;
    match goal with
    | |- context [range_options ?srv options st] =>
        destruct (range_options_cases options srv st)
          as [(srv' & st' & Hall & Hrun) | (err & srv' & st' & cs & Hab & Hrun)];
        rewrite Hrun
    end.
  - destruct (Server_Serve srv' l st') as [e t']. cbn [calls].
    destruct (served_calls options (CallServe srv' l) eq_refl)
      as (Hset & Hserve & Hlen).
    split; [exact Hset | split; [|split; [|exact Hlen]]].
    + intros srv Hin. apply In_nth_error in Hin. destruct Hin as [i Hi].
      apply Hserve in Hi; [|reflexivity]. destruct Hi as [_ E]. discriminate E.
    + intros i srv l' Hi. apply Hserve in Hi; [|reflexivity].
      destruct Hi as [-> E]. injection E as -> ->. auto.
  - cbn [calls].
    destruct Hab as (pre & o & post & s1 & t1 & s2 & -> & _ & _ & ->).
    destruct (aborted_calls pre post o err) as (Hset & Hserve & Hlen).
    split; [exact Hset | split; [|split; [|exact Hlen]]].
    + intros srv Hin. apply In_nth_error in Hin. destruct Hin as [i Hi].
      eapply Hserve; [|exact Hi]; reflexivity.
    + intros i srv l' Hi. exfalso. eapply Hserve; [|exact Hi]; reflexivity.
  - destruct (Server_ListenAndServe srv' st') as [e t']. cbn [calls].
    destruct (served_calls options (CallListenAndServe srv') eq_refl)
      as (Hset & Hserve & Hlen).
    split; [exact Hset | split; [|split; [|exact Hlen]]].
    + intros srv l' Hin. apply In_nth_error in Hin. destruct Hin as [i Hi].
      apply Hserve in Hi; [|reflexivity]. destruct Hi as [_ E]. discriminate E.
    + intros i srv Hi. apply Hserve in Hi; [|reflexivity].
      destruct Hi as [-> E]. injection E as ->. auto.
  - cbn [calls].
    destruct Hab as (pre & o & post & s1 & t1 & s2 & -> & _ & _ & ->).
    destruct (aborted_calls pre post o err) as (Hset & Hserve & Hlen).
    split; [exact Hset | split; [|split; [|exact Hlen]]].
    + intros srv l' Hin. apply In_nth_error in Hin. destruct Hin as [i Hi].
      eapply Hserve; [|exact Hi]; reflexivity.
    + intros i srv Hi. exfalso. eapply Hserve; [|exact Hi]; reflexivity.
Qed.

(** Applying options with no error keeps what each of them keeps. *)
Lemma all_applied_keeps (Q : Server -> Prop) (options : list Option)
  (srv srv' : Server) (st st' : State) :
  all_applied srv st options srv' st' ->
  (forall opt s t, In opt options -> Q s -> Q (snd (fst (SetOption s opt t)))) ->
  Q srv -> Q srv'.
Proof.
  intros Hall. induction Hall as [|srv st opt srv1 st1 options srv' st' E _ IH];
    intros HQ Hsrv.
  - exact Hsrv.
  - apply IH.
    + intros o s t Ho. apply HQ. right. exact Ho.
    + pose proof (HQ opt srv st (or_introl eq_refl) Hsrv) as H1.
      rewrite E in H1. exact H1.
Qed.

(** X12. [Serve] and [ListenAndServe] do not change the server
    themselves.  The server they serve has every property that the
    server they built has, with the handler given, the address given
    (empty for [Serve]) and nothing else set, and that the options
    keep.  So a [nil] handler is still [nil] there: it is not replaced
    by [DefaultHandler] here. *)
Theorem served_server_keeps (Q : Server -> Prop) (l : Listener) (addr : string)
  (handler : Handler) (options : list Option) (st : State) :
  (forall opt s t, In opt options -> Q s -> Q (snd (fst (SetOption s opt t)))) ->
  (Q {| Addr := ""; Server_Handler := handler; other_fields := zero_fields |} ->
   forall srv l', In (CallServe srv l') (calls (Serve l handler options st)) -> Q srv)
  /\ (Q {| Addr := addr; Server_Handler := handler; other_fields := zero_fields |} ->
      forall srv,
        In (CallListenAndServe srv) (calls (ListenAndServe addr handler options st)) ->
        Q srv).
Proof.
  intros HQ.
  assert (Hin : forall (cs : list Option) (c c' : Call),
             is_serving c' = true -> In c' (applied_calls cs ++ [c]) -> c' = c).
  { intros cs c c' Hc Hin. apply in_app_or in Hin.
    destruct Hin as [Hin | [<- | []]]; [|reflexivity].
    apply in_applied_calls in Hin. destruct Hin as [o ->]. discriminate. }
  split; intros Hsrv; unfold Serve, ListenAndServe;
    match goal with
    | |- context [range_options ?srv options st] =>
        destruct (range_options_cases options srv st)
          as [(srv' & st' & Hall & Hrun) | (err & srv' & st' & cs & Hab & Hrun)];
        rewrite Hrun
    end.
  - destruct (Server_Serve srv' l st') as [e t']. cbn [calls].
    intros srv l' Hc. apply Hin in Hc; [|reflexivity]. injection Hc as -> _.
    exact (all_applied_keeps Q options _ _ _ _ Hall HQ Hsrv).
  - cbn [calls].
    destruct Hab as (pre & o & post & s1 & t1 & s2 & _ & _ & _ & ->).
    intros srv l' Hc. apply Hin in Hc; [discriminate | reflexivity].
  - destruct (Server_ListenAndServe srv' st') as [e t']. cbn [calls].
    intros srv Hc. apply Hin in Hc; [|reflexivity]. injection Hc as ->.
    exact (all_applied_keeps Q options _ _ _ _ Hall HQ Hsrv).
  - cbn [calls].
    destruct Hab as (pre & o & post & s1 & t1 & s2 & _ & _ & _ & ->).
    intros srv Hc. apply Hin in Hc; [discriminate | reflexivity].
Qed.

End StartupMore.

(** ** Concrete runs, continued *)

Lemma KeysEqual_trans_witness :
  KeysEqual (Some key_abc) (Some key_abc) = true
  /\ KeysEqual (Some key_abc) (Some {| raw := ["a"; "b"; "c"]%byte |}) = true.
Proof.
  split; [reflexivity|].
  apply (KeysEqual_trans (Some key_abc) (Some key_abc)
           (Some {| raw := ["a"; "b"; "c"]%byte |})); reflexivity.
Defined.

Lemma KeysEqual_same_key_witness :
  KeysEqual (Some key_abc) (Some key_abd) = true <-> key_abc = key_abd.
Proof.
  apply (KeysEqual_same_key key_abc key_abd).
  intros [a] [b] E. cbn in E. rewrite E. reflexivity.
Defined.

Lemma KeysEqual_reads_in_bounds_witness :
  exists ka kb : RawKey,
    Some key_abc = Some ka /\ Some key_abd = Some kb
    /\ (2 < length (Marshal ka))%nat /\ (2 < length (Marshal kb))%nat.
Proof.
  apply (KeysEqual_reads_in_bounds (Some key_abc) (Some key_abd) 2).
  cbn. do 11 right. left. reflexivity.
Defined.

Section RunsMore.

#[local] Existing Instance demo_types.
#[local] Existing Instance demo_methods.
#[local] Existing Instance demo_network.

Lemma options_compose_witness :
  range_options
    {| Addr := ""; Server_Handler := None; other_fields := zero_fields |}
    ([setting "banner"%string] ++ [reject; setting "motd"%string]) demo_state
  = let '(err, srv2, st2, cs) :=
      range_options
        {| Addr := ""; Server_Handler := None;
           other_fields := ["banner"%string] |}
        [reject; setting "motd"%string] demo_state in
    (err, srv2, st2, applied_calls [setting "banner"%string] ++ cs).
Proof.
  apply (options_compose [setting "banner"%string] [reject; setting "motd"%string]).
  eapply applied_cons; [reflexivity | apply applied_nil].
Defined.

Lemma abort_ignores_later_options_witness :
  Serve demo_listener None
    ([setting "banner"%string; reject] ++ [setting "motd"%string]) demo_state
  = Serve demo_listener None [setting "banner"%string; reject] demo_state.
Proof.
  apply (proj1 (abort_ignores_later_options demo_listener ":2222"%string None
                  [setting "banner"%string; reject] [setting "motd"%string]
                  demo_state)).
  reflexivity.
Defined.

Lemma abort_ignores_listener_witness :
  Serve other_listener None [setting "banner"%string; reject] demo_state
  = Serve demo_listener None [setting "banner"%string; reject] demo_state.
Proof.
  apply (abort_ignores_listener demo_listener other_listener None
           [setting "banner"%string; reject] demo_state).
  reflexivity.
Defined.

Lemma nil_means_served_witness :
  let options := [setting "banner"%string; setting "motd"%string] in
  let r := Serve demo_listener None options demo_state in
  exists srv' st',
    all_applied
      {| Addr := ""; Server_Handler := None; other_fields := zero_fields |}
      demo_state options srv' st'
    /\ calls r = applied_calls options ++ [CallServe srv' demo_listener]
    /\ Server_Serve srv' demo_listener st' = (None, final r).
Proof.
  apply (proj1 (nil_means_served demo_listener ":2222"%string None
                  [setting "banner"%string; setting "motd"%string] demo_state)).
  reflexivity.
Defined.

Lemma startup_calls_witness :
  let options := [setting "banner"%string; reject; setting "motd"%string] in
  let r := Serve demo_listener None options demo_state in
  nth_error (calls r) 1 = Some (CallSetOption reject (Some "invalid option"%string))
  /\ nth_error options 1 = Some reject
  /\ (Some "invalid option"%string <> None -> length (calls r) = 2%nat).
Proof.
  intros options r. split; [reflexivity|].
  apply (proj1 (proj1 (startup_calls demo_listener ":2222"%string None
                         options demo_state))
           1%nat reject (Some "invalid option"%string)).
  reflexivity.
Defined.

(** The handler is [nil] when the server is served, whatever the
    [DefaultHandler] is. *)
Lemma served_server_keeps_witness :
  let options := [setting "banner"%string; setting "motd"%string] in
  let served :=
    {| Addr := ""; Server_Handler := None;
       other_fields := ["motd"; "banner"]%string |} in
  In (CallServe served demo_listener)
    (calls (Serve demo_listener None options
              (Handle (Some "shell"%string) demo_state)))
  /\ Server_Handler served = None.
Proof.
  intros options served.
  assert (Hin : In (CallServe served demo_listener)
                  (calls (Serve demo_listener None options
                            (Handle (Some "shell"%string) demo_state)))).
  { cbn. do 2 right. left. reflexivity. }
  split; [exact Hin|].
  refine (proj1 (served_server_keeps (fun srv => Server_Handler srv = None)
                   demo_listener ":2222"%string None options
                   (Handle (Some "shell"%string) demo_state) _)
            eq_refl served demo_listener Hin).
  intros opt s t [<- | [<- | []]] Hs; exact Hs.
Defined.

End RunsMore.
